(** * Realtime-Order: the change-feed pipeline of [server.js]

    [server.js] is an Express application over a Mongoose model [Order]
    (collection [orders]) with a socket.io server attached.  Four REST
    handlers write to the collection; [start] opens a MongoDB change stream
    on the collection and its ['change'] listener pushes one [orderChanged]
    message per event to the connected sockets.

    The development has three layers:
    - [JS values]: the fragment of JavaScript data the handlers touch
      (property access, [||], object literals and spread);
    - [Environment]: what socket.io, Mongoose and the MongoDB driver do on
      behalf of the calls made in [server.js];
    - [Handlers]: the listeners and routes of [server.js], line by line,
      and the event loop that runs them.
    The shutdown on SIGINT (lines 134-144) ends the process and is not part
    of the event loop. *)

From Stdlib Require Import ZArith String List.
From stdpp Require Import base decidable option list sets gmap strings pretty.

Local Open Scope string_scope.
Local Open Scope list_scope.
Set Warnings "-register-all,-clear-no-such-hyp".

(** Sockets are known by their [socket.id]. *)
Abbreviation socket_id := string (only parsing).

(** ** JS values *)

(** JavaScript numbers are IEEE doubles.  The handlers never compute with
    them: they test them ([||], Mongoose's cast), compare them (the filter
    [{ id }]) and obtain one from a path segment ([Number(req.params.id)]).
    These four operations are what the host supplies. *)
Class Host := {
  number : Type;
  isNaN : number -> bool;
  isZero : number -> bool;
  num_eqb : number -> number -> bool;
  Number : string -> number;
}.

Section Server.
Context `{Host}.

Inductive value :=
| VUndefined
| VNull
| VBool (b : bool)
| VNum (n : number)
| VStr (s : string)
| VDate (ms : Z)
| VArr (items : list value)
| VObj (fields : list (string * value)).

(** An object is its own enumerable properties in insertion order. *)
Definition obj : Type := list (string * value).

(** ToBoolean. *)
Definition truthy (v : value) : bool :=
  match v with
  | VUndefined | VNull => false
  | VBool b => b
  | VNum n => negb (isZero n || isNaN n)
  | VStr s => negb (String.eqb s "")
  | VDate _ | VArr _ | VObj _ => true
  end.

(** [a || b] *)
Definition js_or (a b : value) : value := if truthy a then a else b.

(** [o.k] on an object: the property, or [undefined] when there is none. *)
Fixpoint prop (k : string) (o : obj) : value :=
  match o with
  | [] => VUndefined
  | (k', v) :: o' => if String.eqb k' k then v else prop k o'
  end.

(** [v.k] on a value that is an object ([undefined] on the primitives the
    handlers can meet here). *)
Definition get (k : string) (v : value) : value :=
  match v with
  | VObj o => prop k o
  | _ => VUndefined
  end.

(** [o.k = v]: an existing property keeps its place, a new one goes last. *)
Fixpoint assign (k : string) (v : value) (o : obj) : obj :=
  match o with
  | [] => [(k, v)]
  | (k', v') :: o' =>
      if String.eqb k' k then (k, v) :: o' else (k', v') :: assign k v o'
  end.

Definition keys (o : obj) : list string := o.*1.

(** [{ ...v }]: the own enumerable properties of [v].  [express.json()]
    hands the routes an object or an array (and [{}] when there is no
    body); an array spreads to its indices. *)
Definition spread (v : value) : obj :=
  match v with
  | VObj o => o
  | VArr items => imap (fun i x => (pretty i, x)) items
  | _ => []
  end.

(** Equality of values as MongoDB compares them in a filter: field order
    is significant in embedded documents, numbers compare by value. *)
Fixpoint value_eqb (a b : value) : bool :=
  match a, b with
  | VUndefined, VUndefined => true
  | VNull, VNull => true
  | VBool x, VBool y => Bool.eqb x y
  | VNum x, VNum y => num_eqb x y
  | VStr x, VStr y => String.eqb x y
  | VDate x, VDate y => Z.eqb x y
  | VArr xs, VArr ys =>
      (fix all2 (xs ys : list value) : bool :=
         match xs, ys with
         | [], [] => true
         | x :: xs', y :: ys' => value_eqb x y && all2 xs' ys'
         | _, _ => false
         end) xs ys
  | VObj xs, VObj ys =>
      (fix all2 (xs ys : obj) : bool :=
         match xs, ys with
         | [], [] => true
         | (k, x) :: xs', (k', y) :: ys' =>
             String.eqb k k' && value_eqb x y && all2 xs' ys'
         | _, _ => false
         end) xs ys
  | _, _ => false
  end.

Definition is_str (s : string) (v : value) : bool :=
  match v with
  | VStr s' => String.eqb s' s
  | _ => false
  end.

(** ** Environment: Mongoose and the MongoDB collection *)

(** An [await]ed store call resolves to a value or rejects with an error
    object; the routes read [err.message]. *)
Inductive outcome (A : Type) :=
| Return (a : A)
| Throw (err : value).
Arguments Return {A} a.
Arguments Throw {A} err.

(** What Mongoose and MongoDB decide from the schema of [Order]
    (lines 21-27) and the indexes of the collection, and which the routes
    only pass through:
    - [CastError path v]: the error raised when [v] does not cast to the
      schema type of [path];
    - [castUpdate]: the cast of an update document against the schema;
    - [new_document]: the document [Order.create] stores (casts, defaults,
      validators, unique index on [id]) or the error it rejects with;
    - [updated_document]: the document a matched order becomes under an
      update, or the write error;
    - [sort_updated_at_desc]: [.sort({ updated_at: -1 })]. *)
Class Mongoose := {
  CastError : string -> value -> value;
  castUpdate : obj -> outcome obj;
  new_document : list obj -> obj -> outcome obj;
  updated_document : list obj -> obj -> obj -> outcome obj;
  sort_updated_at_desc : list obj -> list obj;
}.
Context `{Mongoose}.

(** The filter [{ id }] on a stored order. *)
Definition matches_id (id : number) (d : obj) : bool :=
  match prop "id" d with
  | VNum n => num_eqb n id
  | _ => false
  end.

Fixpoint replace_first (p : obj -> bool) (d' : obj) (db : list obj) : list obj :=
  match db with
  | [] => []
  | d :: db' => if p d then d' :: db' else d :: replace_first p d' db'
  end.

Fixpoint remove_first (p : obj -> bool) (db : list obj) : list obj :=
  match db with
  | [] => []
  | d :: db' => if p d then db' else d :: remove_first p db'
  end.

(** A store call can also fail for reasons outside the request (the
    connection is lost, the server rejects the command): [fault] is the
    error it then rejects with. *)
Definition Order_create (fault : option value) (db : list obj) (doc : obj)
  : outcome value * list obj :=
  match new_document db doc with
  | Throw e => (Throw e, db)
  | Return d =>
      match fault with
      | Some e => (Throw e, db)
      | None => (Return (VObj d), db ++ [d])
      end
  end.

Definition Order_find_sorted (fault : option value) (db : list obj)
  : outcome value :=
  match fault with
  | Some e => Throw e
  | None => Return (VArr (VObj <$> sort_updated_at_desc db))
  end.

(** [Order.findOneAndUpdate({ id }, update, { new: true, upsert: false })].
    Mongoose casts the filter and the update against the schema before it
    sends the command.  [id] is declared [{ type: Number, ... }] (line 22),
    and the cast of a Number path rejects NaN: the query is then rejected
    with a [CastError] and nothing is sent.  With [upsert: false] a filter
    that matches nothing resolves to [null] and writes nothing; with
    [new: true] a match resolves to the document after the update. *)
Definition Order_findOneAndUpdate (fault : option value) (db : list obj)
    (id : number) (update : obj) : outcome value * list obj :=
  if isNaN id then (Throw (CastError "id" (VNum id)), db)
  else
    match castUpdate update with
    | Throw e => (Throw e, db)
    | Return u =>
        match fault with
        | Some e => (Throw e, db)
        | None =>
            match find (matches_id id) db with
            | None => (Return VNull, db)
            | Some d =>
                match updated_document db d u with
                | Throw e => (Throw e, db)
                | Return d' =>
                    (Return (VObj d'), replace_first (matches_id id) d' db)
                end
            end
        end
    end.

(** [Order.findOneAndDelete({ id })]: same cast of the filter; resolves to
    the deleted document, or to [null] when nothing matches. *)
Definition Order_findOneAndDelete (fault : option value) (db : list obj)
    (id : number) : outcome value * list obj :=
  if isNaN id then (Throw (CastError "id" (VNum id)), db)
  else
    match fault with
    | Some e => (Throw e, db)
    | None =>
        match find (matches_id id) db with
        | None => (Return VNull, db)
        | Some d => (Return (VObj d), remove_first (matches_id id) db)
        end
    end.

(** ** Environment: the change stream *)

(** Modelled from the spec: the point lookup that backfills the full
    document of an update is not in [server.js]; the code asks MongoDB for
    it with the option [fullDocument: 'updateLookup'] of [collection.watch]
    (line 101).  Following section 4.1 of the spec: for an update event the
    current document is looked up by [documentKey] and attached as
    [fullDocument]; when the lookup finds nothing the event is still
    produced, with [fullDocument] null.  Other events are handed on as the
    store emitted them. *)
Definition findOne_by_key (db : list obj) (documentKey : value) : value :=
  match find (fun d => value_eqb (prop "_id" d) (get "_id" documentKey)) db with
  | Some d => VObj d
  | None => VNull
  end.

(** Modelled from the spec: the lookup stage of the subscription, which
    MongoDB runs for the options the stream was opened with (section 4.1:
    "always attempt backfill on update"); [db] is the collection at the
    time the event is dispatched. *)
Definition change_event (options : obj) (db : list obj) (raw : obj) : obj :=
  if is_str "update" (prop "operationType" raw)
     && is_str "updateLookup" (prop "fullDocument" options)
  then assign "fullDocument" (findOne_by_key db (prop "documentKey" raw)) raw
  else raw.

(** Modelled from the spec: the states of a subscription (section 4.1):
    [Idle] before [start] has opened the stream, [Open] while it is active
    (with the options it was opened with), [Closed] after an error or a
    close.  There is no way back from [Closed]. *)
Inductive stream_state :=
| Idle
| Open (options : obj)
| Closed.

(** ** Server state *)

Inductive level := Log | Warn | Error.

(** One send of [io.emit] to one socket; [accepted] is false when the
    send failed. *)
Record packet := Packet {
  to : socket_id;
  event_name : string;
  data : value;
  accepted : bool;
}.

Record response := Response {
  status : nat;
  body : value;
}.

Record state := State {
  console : list (level * list value);   (* console.log / warn / error *)
  orders : list obj;                     (* the collection 'orders' *)
  sockets : gset socket_id;              (* the sockets socket.io holds *)
  gone : gset socket_id;                 (* connections lost unnoticed *)
  wire : list packet;                    (* sends made so far, oldest first *)
  stream : stream_state;                 (* the change stream *)
  replies : list response;               (* HTTP responses, oldest first *)
}.

Definition print (l : level) (args : list value) (st : state) : state :=
  State (console st ++ [(l, args)]) (orders st) (sockets st) (gone st)
        (wire st) (stream st) (replies st).
Definition console_log := print Log.
Definition console_warn := print Warn.
Definition console_error := print Error.

Definition set_orders (db : list obj) (st : state) : state :=
  State (console st) db (sockets st) (gone st) (wire st) (stream st)
        (replies st).
Definition set_sockets (s : gset socket_id) (st : state) : state :=
  State (console st) (orders st) s (gone st) (wire st) (stream st)
        (replies st).
Definition set_gone (g : gset socket_id) (st : state) : state :=
  State (console st) (orders st) (sockets st) g (wire st) (stream st)
        (replies st).
Definition push (p : packet) (st : state) : state :=
  State (console st) (orders st) (sockets st) (gone st) (wire st ++ [p])
        (stream st) (replies st).
Definition set_stream (s : stream_state) (st : state) : state :=
  State (console st) (orders st) (sockets st) (gone st) (wire st) s
        (replies st).
(** [res.status(code).json(v)] *)
Definition reply (code : nat) (v : value) (st : state) : state :=
  State (console st) (orders st) (sockets st) (gone st) (wire st) (stream st)
        (replies st ++ [Response code v]).

(** What a client has received, and what was sent its way. *)
Definition attempted (s : socket_id) (st : state) : list value :=
  data <$> filter (fun p => to p = s) (wire st).
Definition received (s : socket_id) (st : state) : list value :=
  data <$> filter (fun p => to p = s ∧ accepted p = true) (wire st).

(** ** Handlers: socket.io connections (lines 80-85) *)

(** [socket.on('disconnect', ...)] *)
Definition on_disconnect (s : socket_id) (st : state) : state :=
  console_log [VStr "client disconnected"; VStr s] st.

(** [io.on('connection', (socket) => ...)] *)
Definition on_connection (s : socket_id) (st : state) : state :=
  console_log [VStr "client connected"; VStr s] st.

(** ** Environment: the socket.io server *)

(** Modelled from the spec: the set of client channels and the fan-out are
    socket.io's, not code of [server.js], which only registers the two
    listeners above and calls [io.emit].  Following section 4.2 of the
    spec: [register] adds a channel to the active set, [unregister] removes
    it, and [broadcast] attempts one send to every channel of the active set
    at the time of the call, each on its own; a send that fails (the
    connection is already gone) unregisters that channel, which fires its
    ['disconnect'] listener, and raises nothing. *)
Definition register (s : socket_id) (active : gset socket_id) : gset socket_id :=
  {[s]} ∪ active.

(** Modelled from the spec: [unregister] of section 4.2, socket.io's
    removal of a socket from the set it holds. *)
Definition unregister (s : socket_id) (active : gset socket_id) : gset socket_id :=
  active ∖ {[s]}.

(** Modelled from the spec: one send of a broadcast (section 4.2), which
    socket.io makes; it fails when the connection is gone, and the failure
    unregisters the channel and fires its ['disconnect'] listener. *)
Definition send (name : string) (v : value) (st : state) (s : socket_id) : state :=
  if decide (s ∈ gone st)
  then on_disconnect s
         (set_sockets (unregister s (sockets st)) (push (Packet s name v false) st))
  else push (Packet s name v true) st.

(** Modelled from the spec: [broadcast] of section 4.2, that is
    [io.emit(name, v)]: one send to each channel of the active set as it is
    when the call is made. *)
Definition io_emit (name : string) (v : value) (st : state) : state :=
  foldl (send name v) st (elements (sockets st)).

(** ** Handlers: the change stream (lines 88-127) *)

(** The options of [collection.watch([], { fullDocument: 'updateLookup' })]. *)
Definition watch_options : obj := [("fullDocument", VStr "updateLookup")].

(** The object literal of lines 107-113. *)
Definition payload (change : obj) : obj :=
  [ ("op", prop "operationType" change);
    ("ns", prop "ns" change);
    ("documentKey", prop "documentKey" change);
    ("fullDocument", js_or (prop "fullDocument" change) VNull);
    ("updateDescription", js_or (prop "updateDescription" change) VNull) ].

(** [changeStream.on('change', (change) => ...)] *)
Definition on_change (change : obj) (st : state) : state :=
  let st := console_log [VStr "Change detected:"; prop "operationType" change] st in
  io_emit "orderChanged" (VObj (payload change)) st.

(** [changeStream.on('error', (err) => ...)] *)
Definition on_error (err : value) (st : state) : state :=
  console_error [VStr "Change stream error:"; err] st.

(** [changeStream.on('close', () => ...)] *)
Definition on_close (st : state) : state :=
  console_warn [VStr "Change stream closed"] st.

(** [start()] up to [server.listen]: [connected] is how
    [mongoose.connect] settled, [port] is [PORT] as printed.  When the
    connection fails, [start] rejects before the stream is opened and the
    server never listens (lines 147-149). *)
Definition start (connected : outcome unit) (port : string) (st : state) : state :=
  match connected with
  | Throw err => console_error [VStr "Failed to start"; err] st
  | Return _ =>
      let st := console_log [VStr "MongoDB connected"] st in
      let st := set_stream (Open watch_options) st in
      console_log [VStr ("Server listening on " ++ port)] st
  end.

Definition init : state := State [] [] ∅ ∅ [] Idle [].

(** ** Handlers: the REST routes (lines 33-77) *)

Inductive request :=
| POST_orders (body : value)
| GET_orders
| PUT_orders_id (id : string) (body : value)
| DELETE_orders_id (id : string).

(** [app.post('/orders', ...)] *)
Definition post_orders (body : value) (now : Z) (fault : option value)
    (st : state) : state :=
  let doc := assign "updated_at" (VDate now) (spread body) in
  match Order_create fault (orders st) doc with
  | (Return order, db) => reply 201 order (set_orders db st)
  | (Throw err, db) =>
      reply 400 (VObj [("error", get "message" err)])
            (console_error [err] (set_orders db st))
  end.

(** [app.get('/orders', ...)] *)
Definition get_orders (fault : option value) (st : state) : state :=
  match Order_find_sorted fault (orders st) with
  | Return found => reply 200 found st
  | Throw err => reply 500 (VObj [("error", get "message" err)]) st
  end.

(** [app.put('/orders/:id', ...)] *)
Definition put_orders_id (id : string) (body : value) (now : Z)
    (fault : option value) (st : state) : state :=
  let id := Number id in
  let update := assign "updated_at" (VDate now) (spread body) in
  match Order_findOneAndUpdate fault (orders st) id update with
  | (Return order, db) =>
      if negb (truthy order)
      then reply 404 (VObj [("message", VStr "Not found")]) (set_orders db st)
      else reply 200 order (set_orders db st)
  | (Throw err, db) =>
      reply 400 (VObj [("error", get "message" err)]) (set_orders db st)
  end.

(** [app.delete('/orders/:id', ...)] *)
Definition delete_orders_id (id : string) (fault : option value)
    (st : state) : state :=
  let id := Number id in
  match Order_findOneAndDelete fault (orders st) id with
  | (Return result, db) =>
      if negb (truthy result)
      then reply 404 (VObj [("message", VStr "Not found")]) (set_orders db st)
      else reply 200 (VObj [("message", VStr "deleted"); ("id", VNum id)])
                 (set_orders db st)
  | (Throw err, db) =>
      reply 500 (VObj [("error", get "message" err)]) (set_orders db st)
  end.

Definition handle (req : request) (now : Z) (fault : option value)
    (st : state) : state :=
  match req with
  | POST_orders body => post_orders body now fault st
  | GET_orders => get_orders fault st
  | PUT_orders_id id body => put_orders_id id body now fault st
  | DELETE_orders_id id => delete_orders_id id fault st
  end.

(** ** The event loop *)

(** What can happen to the running server: a client connects, disconnects,
    or loses its connection without the server being told; the store emits
    a change event; the change stream fails or closes; a request comes in
    ([now] is the clock read by [new Date()], [fault] a failure of the
    store call, if any). *)
Inductive event :=
| Connect (s : socket_id)
| Disconnect (s : socket_id)
| Drop (s : socket_id)
| Upstream (raw : obj)
| StreamError (err : value)
| StreamClose
| Http (req : request) (now : Z) (fault : option value).

(** How socket.io and the MongoDB driver turn what happens into calls of
    the listeners is not code of [server.js]; the five definitions below
    follow sections 4.1, 4.2 and 6 of the spec. *)

(** Modelled from the spec: a connection registers the channel and fires
    the ['connection'] listener (sections 4.2 and 6); the connection is
    alive. *)
Definition connect (s : socket_id) (st : state) : state :=
  on_connection s
    (set_sockets (register s (sockets st)) (set_gone (gone st ∖ {[s]}) st)).

(** Modelled from the spec: a disconnection unregisters the channel and
    fires its ['disconnect'] listener (sections 4.2 and 6); a socket that
    is not registered has no listener to fire. *)
Definition disconnect (s : socket_id) (st : state) : state :=
  if decide (s ∈ sockets st)
  then on_disconnect s (set_sockets (unregister s (sockets st)) st)
  else st.

(** Modelled from the spec: the driver calls the ['change'] listener with
    each event of an open subscription, one at a time and in the order of
    arrival (section 4.1); a subscription that is not open delivers
    nothing. *)
Definition emit_change (raw : obj) (st : state) : state :=
  match stream st with
  | Open options => on_change (change_event options (orders st) raw) st
  | _ => st
  end.

(** Modelled from the spec: an error of the subscription "invokes the
    error-handler and terminates the current subscription" (section 4.1). *)
Definition emit_error (err : value) (st : state) : state :=
  match stream st with
  | Open _ => set_stream Closed (on_error err st)
  | _ => st
  end.

(** Modelled from the spec: the end of the subscription fires the
    ['close'] listener (section 4.1, state [Closed]). *)
Definition emit_close (st : state) : state := set_stream Closed (on_close st).

(** One turn of the event loop.  [server.listen] is the last call of
    [start] (line 129): before [start] has opened the stream nothing is
    listening. *)
Definition step (st : state) (ev : event) : state :=
  match stream st with
  | Idle => st
  | Closed | Open _ =>
      match ev with
      | Connect s => connect s st
      | Disconnect s => disconnect s st
      | Drop s => set_gone ({[s]} ∪ gone st) st
      | Upstream raw => emit_change raw st
      | StreamError err => emit_error err st
      | StreamClose => emit_close st
      | Http req now fault => handle req now fault st
      end
  end.

Definition run (st : state) (evs : list event) : state := foldl step st evs.

(** The change events the ['change'] listener is called with, on one
    turn and along a run, in the order of the calls. *)
Definition feed (st : state) (ev : event) : list obj :=
  match stream st, ev with
  | Open options, Upstream raw => [change_event options (orders st) raw]
  | _, _ => []
  end.

Fixpoint dispatched (st : state) (evs : list event) : list obj :=
  match evs with
  | [] => []
  | ev :: evs' => feed st ev ++ dispatched (step st ev) evs'
  end.

(** The record pushed for a change event. *)
Definition record (change : obj) : value := VObj (payload change).

(** An event that leaves client [s] connected and the stream open. *)
Definition quiet (s : socket_id) (ev : event) : Prop :=
  match ev with
  | Disconnect s' | Drop s' => s' ≠ s
  | StreamError _ | StreamClose => False
  | _ => True
  end.

(** ** Vocabulary of the properties *)

(** The sends one broadcast makes over the channels [l] when [g] are the
    connections that are gone. *)
Definition sends (name : string) (v : value) (g : gset socket_id)
    (l : list socket_id) : list packet :=
  (fun s => Packet s name v (bool_decide (s ∉ g))) <$> l.

(** The records that are about the document with key [k]. *)
Definition about (k : value) (v : value) : Prop :=
  value_eqb (get "documentKey" v) k = true.

#[global] Instance about_dec k v : Decision (about k v).
Proof. unfold about. apply _. Defined.

(** A packet of the wire as the change listener writes it for one of the
    change events [changes]: an [orderChanged] message whose data is the
    object of lines 107-113 for that event, property by property.  The
    last two properties are never undefined, and the event's [_id], its
    resume token, has no part in the data. *)
Definition order_changed (changes : list obj) (p : packet) : Prop :=
  event_name p = "orderChanged"
  ∧ ∃ change,
      change ∈ changes
      ∧ data p
        = VObj [ ("op", prop "operationType" change);
                 ("ns", prop "ns" change);
                 ("documentKey", prop "documentKey" change);
                 ("fullDocument",
                    if truthy (prop "fullDocument" change)
                    then prop "fullDocument" change else VNull);
                 ("updateDescription",
                    if truthy (prop "updateDescription" change)
                    then prop "updateDescription" change else VNull) ]
      ∧ get "fullDocument" (data p) ≠ VUndefined
      ∧ get "updateDescription" (data p) ≠ VUndefined
      ∧ ∀ token, VObj (payload (assign "_id" token change)) = data p.

(** The body of the response of lines 60 and 72, and the body a catch
    branch answers with for the error [err]. *)
Definition not_found : value := VObj [("message", VStr "Not found")].
Definition failure (err : value) : value := VObj [("error", get "message" err)].

(** The events that are requests, and those among them that are sent to
    a route which writes (lines 33, 55 and 68). *)
Definition is_request (ev : event) : bool :=
  match ev with
  | Http _ _ _ => true
  | _ => false
  end.

Definition writes (ev : event) : bool :=
  match ev with
  | Http (POST_orders _) _ _
  | Http (PUT_orders_id _ _) _ _
  | Http (DELETE_orders_id _) _ _ => true
  | _ => false
  end.

(** The line the change listener prints for a change event (line 105),
    and the test that a line of the console is one of those. *)
Definition change_line (change : obj) : level * list value :=
  (Log, [VStr "Change detected:"; prop "operationType" change]).

Definition is_change_line (e : level * list value) : bool :=
  match e with
  | (Log, [VStr s; _]) => String.eqb s "Change detected:"
  | _ => false
  end.

(** The response a route sends for the outcome of its store call: the
    success branch of the route, the 404 of lines 60 and 72 when PUT or
    DELETE found nothing, or the catch branch with the message of the error
    the call rejected with. *)
Definition answer (req : request) (called : outcome value) : response :=
  match req, called with
  | POST_orders _, Return order => Response 201 order
  | POST_orders _, Throw err => Response 400 (failure err)
  | GET_orders, Return found => Response 200 found
  | GET_orders, Throw err => Response 500 (failure err)
  | PUT_orders_id _ _, Return order =>
      if truthy order then Response 200 order else Response 404 not_found
  | PUT_orders_id _ _, Throw err => Response 400 (failure err)
  | DELETE_orders_id id, Return result =>
      if truthy result
      then Response 200 (VObj [("message", VStr "deleted");
                               ("id", VNum (Number id))])
      else Response 404 not_found
  | DELETE_orders_id _, Throw err => Response 500 (failure err)
  end.

(** The store call a route makes (lines 36, 47, 59 and 71). *)
Definition store_call (req : request) (now : Z) (fault : option value)
    (db : list obj) : outcome value :=
  match req with
  | POST_orders sent =>
      (Order_create fault db (assign "updated_at" (VDate now) (spread sent))).1
  | GET_orders => Order_find_sorted fault db
  | PUT_orders_id id sent =>
      (Order_findOneAndUpdate fault db (Number id)
         (assign "updated_at" (VDate now) (spread sent))).1
  | DELETE_orders_id id => (Order_findOneAndDelete fault db (Number id)).1
  end.

End Server.

Arguments Return {_ A} a.
Arguments Throw {_ A} err.

(** * A concrete host *)

(** A host to run the model on: the integers and NaN for numbers, [Number]
    reading a decimal numeral and giving NaN on a string with any other
    character; a store that accepts every document, assigns [_id]s in
    sequence and applies an update by setting its fields.  The message of
    its cast error abbreviates Mongoose's. *)
Module Sample.

Definition digit (c : Ascii.ascii) : option Z :=
  let n := Z.of_nat (Ascii.nat_of_ascii c) in
  if (48 <=? n)%Z && (n <=? 57)%Z then Some (n - 48)%Z else None.

Fixpoint decimal (acc : Z) (s : string) : option Z :=
  match s with
  | EmptyString => Some acc
  | String c s' =>
      match digit c with
      | Some d => decimal (10 * acc + d)%Z s'
      | None => None
      end
  end.

Definition host : Host := {|
  number := option Z;
  isNaN n := match n with None => true | Some _ => false end;
  isZero n := match n with Some 0%Z => true | _ => false end;
  num_eqb a b :=
    match a, b with
    | Some x, Some y => (x =? y)%Z
    | _, _ => false
    end;
  Number := decimal 0;
|}.
#[local] Existing Instance host.

Definition updated_at (d : obj) : Z :=
  match prop "updated_at" d with
  | VDate ms => ms
  | _ => 0%Z
  end.

Fixpoint insert_desc (d : obj) (db : list obj) : list obj :=
  match db with
  | [] => [d]
  | d' :: db' =>
      if (updated_at d' <=? updated_at d)%Z then d :: d' :: db'
      else d' :: insert_desc d db'
  end.

Definition store : Mongoose := {|
  CastError path v :=
    VObj [("message", VStr ("Cast to Number failed at path " ++ path))];
  castUpdate u := Return u;
  new_document db doc :=
    Return (("_id", VStr ("oid" ++ pretty (length db))) :: doc);
  updated_document db d u := Return (foldl (fun d kv => assign kv.1 kv.2 d) d u);
  sort_updated_at_desc db := foldr insert_desc [] db;
|}.
#[local] Existing Instance store.

(** The server after [start], with two clients connected and order 200
    created by POST /orders at time 1000. *)
Definition order200 : value :=
  VObj [ ("id", VNum (Some 200%Z)); ("customer_name", VStr "Bob");
         ("product_name", VStr "T-shirt"); ("status", VStr "pending") ].

Definition online : state :=
  run (start (Return ()) "3000" init)
      [Connect "alice"; Connect "bob"; Http (POST_orders order200) 1000 None].

(** The same after PUT /orders/200 has set the status to shipped. *)
Definition after_put : state :=
  step online
       (Http (PUT_orders_id "200" (VObj [("status", VStr "shipped")])) 2000 None).

(** The same as [online] after bob's connection has been lost. *)
Definition bob_lost : state := step online (Drop "bob").

(** The change events of the three writes on order 200. *)
Definition ns_orders : value :=
  VObj [("db", VStr "shop"); ("coll", VStr "orders")].
Definition key200 : value := VObj [("_id", VStr "oid0")].

Definition stored200 : obj :=
  [ ("_id", VStr "oid0"); ("id", VNum (Some 200%Z));
    ("customer_name", VStr "Bob"); ("product_name", VStr "T-shirt");
    ("status", VStr "pending"); ("updated_at", VDate 1000) ].

Definition shipped200 : obj :=
  [ ("_id", VStr "oid0"); ("id", VNum (Some 200%Z));
    ("customer_name", VStr "Bob"); ("product_name", VStr "T-shirt");
    ("status", VStr "shipped"); ("updated_at", VDate 2000) ].

Definition inserted : obj :=
  [ ("_id", VStr "token-1"); ("operationType", VStr "insert");
    ("ns", ns_orders); ("documentKey", key200);
    ("fullDocument", VObj stored200) ].

Definition shipped : value :=
  VObj [ ("updatedFields",
            VObj [("status", VStr "shipped"); ("updated_at", VDate 2000)]);
         ("removedFields", VArr []) ].

Definition updated : obj :=
  [ ("_id", VStr "token-2"); ("operationType", VStr "update");
    ("ns", ns_orders); ("documentKey", key200);
    ("updateDescription", shipped) ].

Definition deleted : obj :=
  [ ("_id", VStr "token-3"); ("operationType", VStr "delete");
    ("ns", ns_orders); ("documentKey", key200) ].

End Sample.

(** * Properties *)

Section Properties.
Context `{Host} `{Mongoose}.

Ltac unfold_step :=
  unfold step, connect, disconnect, emit_change, emit_error, emit_close.

(** ** Objects *)

Lemma prop_assign_ne (k k' : string) (v : value) (o : obj) :
  k ≠ k' → prop k' (assign k v o) = prop k' o.
Proof.
  intros Hne. induction o as [|[k0 v0] o IH]; simpl.
  - destruct (String.eqb_spec k k'); congruence.
  - destruct (String.eqb_spec k0 k) as [->|Hk]; simpl.
    + destruct (String.eqb_spec k k'); congruence.
    + destruct (String.eqb_spec k0 k'); auto.
Qed.

Lemma prop_assign_eq (k : string) (v : value) (o : obj) :
  prop k (assign k v o) = v.
Proof.
  induction o as [|[k0 v0] o IH]; simpl.
  - by rewrite String.eqb_refl.
  - destruct (String.eqb_spec k0 k) as [->|Hk]; simpl.
    + by rewrite String.eqb_refl.
    + destruct (String.eqb_spec k0 k); congruence.
Qed.

(** ** The fan-out of [io.emit] *)

Lemma foldl_send_frame name v l st :
  gone (foldl (send name v) st l) = gone st
  ∧ orders (foldl (send name v) st l) = orders st
  ∧ stream (foldl (send name v) st l) = stream st
  ∧ replies (foldl (send name v) st l) = replies st.
Proof.
  revert st. induction l as [|s l IH]; intros st; simpl; [done|].
  destruct (IH (send name v st s)) as (-> & -> & -> & ->).
  unfold send. by case_decide.
Qed.

Lemma foldl_send_wire name v l st :
  wire (foldl (send name v) st l) = wire st ++ sends name v (gone st) l.
Proof.
  revert st. induction l as [|s l IH]; intros st; simpl.
  - by rewrite app_nil_r.
  - rewrite IH. unfold sends.
    assert (gone (send name v st s) = gone st) as ->
      by (unfold send; by case_decide).
    unfold send. case_decide; simpl; rewrite <- app_assoc; simpl.
    + by rewrite bool_decide_eq_false_2 by tauto.
    + by rewrite bool_decide_eq_true_2.
Qed.

Lemma foldl_send_sockets name v l st :
  sockets (foldl (send name v) st l)
  = sockets st ∖ (list_to_set l ∩ gone st).
Proof.
  revert st. induction l as [|s l IH]; intros st; simpl.
  - set_solver.
  - rewrite IH. unfold send, unregister.
    case_decide; simpl; set_solver.
Qed.

Lemma foldl_send_console name v l st :
  ∃ added, console (foldl (send name v) st l) = console st ++ added
           ∧ Forall (fun e => e.1 = Log) added.
Proof.
  revert st. induction l as [|s l IH]; intros st; simpl.
  - exists []. by rewrite app_nil_r.
  - destruct (IH (send name v st s)) as (added & -> & Hall).
    unfold send. case_decide; simpl.
    + exists (((Log, [VStr "client disconnected"; VStr s]) : level * list value) :: added).
      rewrite <- app_assoc. split; [done|]. by constructor.
    + by exists added.
Qed.

Lemma filter_sends_to name v g l s :
  NoDup l →
  filter (fun p => to p = s) (sends name v g l)
  = if decide (s ∈ l) then [Packet s name v (bool_decide (s ∉ g))] else [].
Proof.
  unfold sends. induction 1 as [|a l Hnotin Hnd IH]; [done|].
  rewrite fmap_cons, filter_cons; simpl. rewrite IH.
  destruct (decide (a = s)) as [->|Hne].
  - rewrite decide_False by done. rewrite decide_True by set_solver. done.
  - destruct (decide (s ∈ l)).
    + rewrite decide_True by set_solver. done.
    + rewrite decide_False by set_solver. done.
Qed.

Lemma filter_sends_accepted name v g l s :
  NoDup l →
  filter (fun p => to p = s ∧ accepted p = true) (sends name v g l)
  = if decide (s ∈ l ∧ s ∉ g) then [Packet s name v true] else [].
Proof.
  unfold sends. induction 1 as [|a l Hnotin Hnd IH].
  - rewrite decide_False; [done|]. set_solver.
  - rewrite fmap_cons, filter_cons; simpl. rewrite IH.
    destruct (decide (a = s)) as [->|Hne].
    + rewrite (decide_False (P := s ∈ l ∧ s ∉ g)) by tauto.
      destruct (decide (s ∉ g)).
      * rewrite bool_decide_eq_true_2 by done.
        rewrite decide_True by done. rewrite decide_True by set_solver. done.
      * rewrite bool_decide_eq_false_2 by done.
        rewrite decide_False by (intros [_ ?]; done).
        rewrite decide_False by tauto. done.
    + rewrite decide_False by tauto.
      destruct (decide (s ∈ l ∧ s ∉ g)).
      * rewrite decide_True by set_solver. done.
      * rewrite decide_False by set_solver. done.
Qed.

Lemma io_emit_attempted name v st s :
  attempted s (io_emit name v st)
  = attempted s st ++ (if decide (s ∈ sockets st) then [v] else []).
Proof.
  unfold attempted, io_emit. rewrite foldl_send_wire, filter_app, fmap_app.
  rewrite filter_sends_to by apply NoDup_elements. f_equal.
  destruct (decide (s ∈ sockets st)).
  - rewrite decide_True by (by apply elem_of_elements). done.
  - rewrite decide_False by (by rewrite elem_of_elements). done.
Qed.

Lemma io_emit_received name v st s :
  received s (io_emit name v st)
  = received s st
    ++ (if decide (s ∈ sockets st ∧ s ∉ gone st) then [v] else []).
Proof.
  unfold received, io_emit. rewrite foldl_send_wire, filter_app, fmap_app.
  rewrite filter_sends_accepted by apply NoDup_elements. f_equal.
  destruct (decide (s ∈ sockets st ∧ s ∉ gone st)).
  - rewrite decide_True by (by rewrite elem_of_elements). done.
  - rewrite decide_False by (by rewrite elem_of_elements). done.
Qed.

Lemma io_emit_sockets name v st :
  sockets (io_emit name v st) = sockets st ∖ gone st.
Proof.
  unfold io_emit. rewrite foldl_send_sockets. set_solver.
Qed.

(** ** The listeners and the routes, one turn at a time *)

Lemma on_change_received change st s :
  received s (on_change change st)
  = received s st
    ++ (if decide (s ∈ sockets st ∧ s ∉ gone st) then [record change] else []).
Proof. unfold on_change. by rewrite io_emit_received. Qed.

Lemma on_change_attempted change st s :
  attempted s (on_change change st)
  = attempted s st
    ++ (if decide (s ∈ sockets st) then [record change] else []).
Proof. unfold on_change. by rewrite io_emit_attempted. Qed.

Lemma on_change_sockets change st :
  sockets (on_change change st) = sockets st ∖ gone st.
Proof. unfold on_change. by rewrite io_emit_sockets. Qed.

Lemma on_change_frame change st :
  gone (on_change change st) = gone st
  ∧ orders (on_change change st) = orders st
  ∧ stream (on_change change st) = stream st
  ∧ replies (on_change change st) = replies st.
Proof.
  unfold on_change, io_emit.
  set (st' := console_log _ st). set (l := elements _).
  by destruct (foldl_send_frame "orderChanged" (VObj (payload change)) l st')
    as (-> & -> & -> & ->).
Qed.

(** A route writes to the collection and answers; it leaves the sockets,
    the wire and the stream alone. *)
Lemma handle_frame req now fault st :
  wire (handle req now fault st) = wire st
  ∧ sockets (handle req now fault st) = sockets st
  ∧ gone (handle req now fault st) = gone st
  ∧ stream (handle req now fault st) = stream st.
Proof.
  destruct req as [body| |id body|id]; simpl;
    unfold post_orders, get_orders, put_orders_id, delete_orders_id.
  - by destruct (Order_create _ _ _) as [[?|?] ?].
  - by destruct (Order_find_sorted _ _).
  - destruct (Order_findOneAndUpdate _ _ _ _) as [[o|?] ?]; [|done].
    by destruct (negb (truthy o)).
  - destruct (Order_findOneAndDelete _ _ _) as [[o|?] ?]; [|done].
    by destruct (negb (truthy o)).
Qed.

Lemma step_open st options ev :
  stream st = Open options →
  step st ev =
    match ev with
    | Connect s =>
        on_connection s
          (set_sockets (register s (sockets st)) (set_gone (gone st ∖ {[s]}) st))
    | Disconnect s =>
        if decide (s ∈ sockets st)
        then on_disconnect s (set_sockets (unregister s (sockets st)) st)
        else st
    | Drop s => set_gone ({[s]} ∪ gone st) st
    | Upstream raw => on_change (change_event options (orders st) raw) st
    | StreamError err => set_stream Closed (on_error err st)
    | StreamClose => set_stream Closed (on_close st)
    | Http req now fault => handle req now fault st
    end.
Proof. intros Hs. unfold_step. rewrite Hs. by destruct ev. Qed.

(** One quiet turn: the client stays connected, the stream stays open, and
    the client receives the record of the change dispatched on that turn,
    if there is one. *)
Lemma step_quiet st options s ev :
  stream st = Open options → s ∈ sockets st → s ∉ gone st → quiet s ev →
  stream (step st ev) = Open options
  ∧ (s ∈ sockets (step st ev))
  ∧ (s ∉ gone (step st ev))
  ∧ received s (step st ev) = received s st ++ (record <$> feed st ev).
Proof.
  intros Hs Hin Hlive Hq. rewrite (step_open _ _ _ Hs).
  unfold feed. rewrite Hs.
  destruct ev as [s'|s'|s'|raw|err| |req now fault]; simpl in *;
    try done; try (rewrite app_nil_r).
  - unfold register. set_solver.
  - case_decide; simpl; unfold unregister; [set_solver|done].
  - set_solver.
  - destruct (on_change_frame (change_event options (orders st) raw) st)
      as (-> & _ & -> & _).
    rewrite on_change_sockets, on_change_received.
    rewrite decide_True by done. set_solver.
  - destruct (handle_frame req now fault st) as (Hw & -> & -> & ->).
    unfold received. by rewrite Hw.
Qed.

Lemma received_run_quiet st options s evs :
  stream st = Open options → s ∈ sockets st → s ∉ gone st →
  Forall (quiet s) evs →
  stream (run st evs) = Open options
  ∧ (s ∈ sockets (run st evs))
  ∧ (s ∉ gone (run st evs))
  ∧ received s (run st evs) = received s st ++ (record <$> dispatched st evs).
Proof.
  intros Hs Hin Hlive Hq. revert st Hs Hin Hlive.
  induction Hq as [|ev evs Hev Hevs IH]; intros st Hs Hin Hlive; simpl.
  - by rewrite app_nil_r.
  - destruct (step_quiet st options s ev Hs Hin Hlive Hev)
      as (Hs' & Hin' & Hlive' & Hrecv).
    destruct (IH _ Hs' Hin' Hlive') as (? & ? & ? & Hrun).
    unfold run in *. rewrite Hrun, Hrecv, fmap_app, app_assoc. done.
Qed.

(** The lookup stage only ever touches [fullDocument]. *)
Lemma change_event_prop options db raw k :
  k ≠ "fullDocument" → prop k (change_event options db raw) = prop k raw.
Proof.
  intros Hk. unfold change_event.
  destruct (_ && _); [|done]. by apply prop_assign_ne.
Qed.

Lemma dispatched_upstream st options (raws : list obj) :
  stream st = Open options →
  dispatched st (Upstream <$> raws)
  = change_event options (orders st) <$> raws.
Proof.
  revert st. induction raws as [|raw raws IH]; intros st Hs; [done|].
  rewrite !fmap_cons. simpl. unfold feed at 1. rewrite Hs. simpl. f_equal.
  rewrite (step_open _ _ _ Hs).
  destruct (on_change_frame (change_event options (orders st) raw) st)
    as (_ & Hdb & Hst & _).
  rewrite IH by congruence. by rewrite Hdb.
Qed.

Lemma filter_about_records options db k (raws : list obj) :
  filter (about k) ((fun raw => record (change_event options db raw)) <$> raws)
  = (fun raw => record (change_event options db raw))
      <$> filter (fun raw => value_eqb (prop "documentKey" raw) k = true) raws.
Proof.
  induction raws as [|raw raws IH]; [done|].
  rewrite fmap_cons, !filter_cons, IH.
  assert (about k (record (change_event options db raw))
          ↔ value_eqb (prop "documentKey" raw) k = true) as Hiff.
  { unfold about, record. simpl. by rewrite change_event_prop. }
  destruct (decide (about k _)) as [Ha|Ha];
    destruct (decide (value_eqb _ k = true)) as [Hb|Hb]; try done; tauto.
Qed.

(** C1.  Every sequence of upstream change events reaches a connected
    client as the sequence of their records, one per event and in the order
    of emission; in particular the records about any one document key are
    delivered in the order in which the events for that key were emitted.
    The same holds when other events come in between, as long as the client
    stays connected and the stream open: the client receives the records of
    the changes the listener was called with, in the order of the calls. *)
Theorem upstream_order_preserved st options s (raws : list obj) :
  stream st = Open options → s ∈ sockets st → s ∉ gone st →
  let after := run st (Upstream <$> raws) in
  let pushed raw := record (change_event options (orders st) raw) in
  received s after = received s st ++ (pushed <$> raws)
  ∧ (∀ k, filter (about k) (received s after)
          = filter (about k) (received s st)
            ++ (pushed <$>
                  filter (fun raw => value_eqb (prop "documentKey" raw) k = true)
                         raws))
  ∧ ∀ evs, Forall (quiet s) evs →
           received s (run st evs)
           = received s st ++ (record <$> dispatched st evs).
Proof.
  intros Hs Hin Hlive after pushed.
  assert (Forall (quiet s) (Upstream <$> raws)) as Hq.
  { apply Forall_fmap, Forall_forall. by intros. }
  destruct (received_run_quiet st options s _ Hs Hin Hlive Hq)
    as (_ & _ & _ & Hrecv).
  rewrite (dispatched_upstream _ _ _ Hs), <- list_fmap_compose in Hrecv.
  split; [exact Hrecv|]. split.
  - intros k. subst after. rewrite Hrecv, filter_app. f_equal.
    apply filter_about_records.
  - intros evs Hevs. by eapply received_run_quiet.
Qed.

(** ** Who is sent what *)

(** Only a change event puts anything on the wire. *)
Lemma step_wire st ev :
  (∀ raw, ev ≠ Upstream raw) → wire (step st ev) = wire st.
Proof.
  intros Hev. unfold_step.
  destruct (stream st) eqn:Hs; [done| |];
    destruct ev as [s'|s'|s'|raw|err| |req now fault]; simpl; try done;
    try (by case_decide);
    try (by destruct (handle_frame req now fault st) as (-> & _));
    by destruct (Hev raw).
Qed.

(** A client that is not registered receives nothing, whatever happens. *)
Lemma step_unregistered st ev s :
  s ∉ sockets st → received s (step st ev) = received s st.
Proof.
  intros Hout.
  assert ((∃ raw, ev = Upstream raw) ∨ ∀ raw, ev ≠ Upstream raw) as [[raw ->]|Hev]
    by (destruct ev; eauto).
  - unfold_step. destruct (stream st) eqn:Hs; simpl; try done.
    rewrite on_change_received, decide_False by tauto. by rewrite app_nil_r.
  - unfold received. by rewrite step_wire.
Qed.

(** It stays unregistered until it connects. *)
Lemma step_stays_unregistered st ev s :
  s ∉ sockets st → ev ≠ Connect s → s ∉ sockets (step st ev).
Proof.
  intros Hout Hev. unfold_step.
  destruct (stream st) eqn:Hs; [done| |];
    destruct ev as [s'|s'|s'|raw|err| |req now fault]; simpl; try done;
    try (unfold register; set_solver);
    try (case_decide; simpl; unfold unregister; set_solver);
    try (by destruct (handle_frame req now fault st) as (_ & -> & _)).
  rewrite on_change_sockets. set_solver.
Qed.

Lemma run_stays_unregistered st evs s :
  s ∉ sockets st → Forall (fun ev => ev ≠ Connect s) evs →
  s ∉ sockets (run st evs).
Proof.
  intros Hout Hevs. revert st Hout.
  induction Hevs as [|ev evs Hev _ IH]; intros st Hout; [done|].
  simpl. apply IH. by apply step_stays_unregistered.
Qed.

(** C2.  The broadcast of the record of an upstream event makes one send
    to every channel of the active set at that time and to no other; a
    client that was registered before the event and is still registered
    after it has received exactly one record for it, a client that was not
    registered has received none.  The last two parts say the same along a
    run: after connecting and until it disconnects a client receives the
    record of the next event, after disconnecting and until it connects
    again it does not. *)
Theorem broadcast_reaches_exactly_the_active_set st options raw s :
  stream st = Open options →
  let after := step st (Upstream raw) in
  let pushed := record (change_event options (orders st) raw) in
  attempted s after
  = attempted s st ++ (if decide (s ∈ sockets st) then [pushed] else [])
  ∧ (s ∈ sockets st → s ∈ sockets after →
     received s after = received s st ++ [pushed])
  ∧ (s ∉ sockets st → received s after = received s st)
  ∧ (∀ evs, Forall (quiet s) evs →
     let st1 := run (step st (Connect s)) evs in
     received s (step st1 (Upstream raw))
     = received s st1 ++ [record (change_event options (orders st1) raw)])
  ∧ (∀ evs, Forall (fun ev => ev ≠ Connect s) evs →
     let st1 := run (step st (Disconnect s)) evs in
     received s (step st1 (Upstream raw)) = received s st1).
Proof.
  intros Hs after pushed. subst after pushed.
  rewrite (step_open _ _ _ Hs).
  repeat split.
  - apply on_change_attempted.
  - intros Hin Hstill. rewrite on_change_sockets in Hstill.
    rewrite on_change_received, decide_True; [done|set_solver].
  - intros Hout. rewrite on_change_received, decide_False by tauto.
    by rewrite app_nil_r.
  - intros evs Hq st1.
    assert (stream (step st (Connect s)) = Open options
            ∧ (s ∈ sockets (step st (Connect s)))
            ∧ (s ∉ gone (step st (Connect s)))) as (Hs1 & Hin1 & Hlive1).
    { rewrite (step_open _ _ _ Hs). simpl. unfold register. set_solver. }
    destruct (received_run_quiet _ options s evs Hs1 Hin1 Hlive1 Hq)
      as (Hs2 & Hin2 & Hlive2 & _).
    fold st1 in Hs2, Hin2, Hlive2.
    rewrite (step_open _ _ _ Hs2), on_change_received.
    by rewrite decide_True.
  - intros evs Hevs st1. apply step_unregistered.
    apply run_stays_unregistered; [|done].
    rewrite (step_open _ _ _ Hs). case_decide; simpl; [|done].
    unfold unregister. set_solver.
Qed.

(** ** The end of a subscription *)

Lemma step_closed st ev :
  stream st = Closed →
  stream (step st ev) = Closed ∧ wire (step st ev) = wire st ∧ feed st ev = [].
Proof.
  intros Hs. unfold feed; unfold_step. rewrite Hs.
  destruct ev as [s'|s'|s'|raw|err| |req now fault]; simpl; try done.
  - by case_decide.
  - by destruct (handle_frame req now fault st) as (-> & _ & _ & ->).
Qed.

Lemma run_closed st evs :
  stream st = Closed →
  stream (run st evs) = Closed ∧ wire (run st evs) = wire st
  ∧ dispatched st evs = [].
Proof.
  revert st. induction evs as [|ev evs IH]; intros st Hs; [done|].
  destruct (step_closed st ev Hs) as (Hs' & Hw & Hf).
  destruct (IH _ Hs') as (? & Hw' & Hd).
  simpl. rewrite Hf, Hd. fold (run (step st ev) evs). by rewrite Hw'.
Qed.

(** C3.  An error of the open change stream is handed to the error
    listener, which prints it, and the stream is closed.  Nothing reopens
    it: whatever happens afterwards the stream stays closed, the change
    listener is never called again and no client is sent anything. *)
Theorem stream_error_ends_delivery st options err :
  stream st = Open options →
  let failed := step st (StreamError err) in
  console failed = console st ++ [(Error, [VStr "Change stream error:"; err])]
  ∧ stream failed = Closed
  ∧ wire failed = wire st
  ∧ ∀ evs s, stream (run failed evs) = Closed
             ∧ dispatched failed evs = []
             ∧ received s (run failed evs) = received s st.
Proof.
  intros Hs failed. subst failed. rewrite (step_open _ _ _ Hs). simpl.
  repeat split; try done.
  - by apply run_closed.
  - by apply run_closed.
  - unfold received.
    by destruct (run_closed (set_stream Closed (on_error err st)) evs eq_refl)
      as (_ & -> & _).
Qed.

(** ** A send that fails *)

(** C7.  When the send of a record to channel [c] fails, [c] is
    unregistered and has received nothing; the stream stays open, no
    response is produced and nothing is printed as an error; every other
    registered channel whose connection is alive stays registered and
    receives the record. *)
Theorem send_failure_is_local st options raw c :
  stream st = Open options → c ∈ sockets st → c ∈ gone st →
  let after := step st (Upstream raw) in
  let pushed := record (change_event options (orders st) raw) in
  (c ∉ sockets after)
  ∧ attempted c after = attempted c st ++ [pushed]
  ∧ received c after = received c st
  ∧ stream after = Open options
  ∧ replies after = replies st
  ∧ (∃ printed, console after = console st ++ printed
                ∧ Forall (fun e => e.1 = Log) printed)
  ∧ ∀ d, d ∈ sockets st → d ∉ gone st →
         (d ∈ sockets after) ∧ received d after = received d st ++ [pushed].
Proof.
  intros Hs Hin Hgone after pushed. subst after pushed.
  rewrite (step_open _ _ _ Hs).
  destruct (on_change_frame (change_event options (orders st) raw) st)
    as (_ & _ & Hst & Hre).
  repeat split.
  - rewrite on_change_sockets. set_solver.
  - rewrite on_change_attempted. by rewrite decide_True.
  - rewrite on_change_received, decide_False by tauto. by rewrite app_nil_r.
  - congruence.
  - done.
  - unfold on_change, io_emit.
    set (st' := console_log _ st). set (l := elements _).
    destruct (foldl_send_console "orderChanged"
                (VObj (payload (change_event options (orders st) raw))) l st')
      as (added & -> & Hall).
    eexists (_ :: added). subst st'. simpl. rewrite <- app_assoc. simpl.
    split; [done|]. by constructor.
  - rewrite on_change_sockets. set_solver.
  - rewrite on_change_received. by rewrite decide_True.
Qed.

(** ** Registering twice *)

(** C8.  Registering a channel twice gives the channel set that registering
    it once gives, and so does unregistering it twice; the same holds of two
    connections, or two disconnections, of the same socket in a row. *)
Theorem register_unregister_idempotent s (active : gset socket_id) st :
  register s (register s active) = register s active
  ∧ unregister s (unregister s active) = unregister s active
  ∧ sockets (step (step st (Connect s)) (Connect s))
    = sockets (step st (Connect s))
  ∧ gone (step (step st (Connect s)) (Connect s))
    = gone (step st (Connect s))
  ∧ step (step st (Disconnect s)) (Disconnect s) = step st (Disconnect s).
Proof.
  unfold register, unregister. repeat split; try set_solver.
  - unfold_step. destruct (stream st) eqn:Hs; rewrite ?Hs; simpl;
      rewrite ?Hs; simpl; unfold register; set_solver.
  - unfold_step. destruct (stream st) eqn:Hs; rewrite ?Hs; simpl;
      rewrite ?Hs; simpl; set_solver.
  - unfold_step. destruct (stream st) eqn:Hs; [by rewrite Hs| |];
      (destruct (decide (s ∈ sockets st));
       [ simpl; rewrite Hs; rewrite decide_False;
         [done | simpl; unfold unregister; set_solver]
       | by rewrite Hs, decide_False ]).
Qed.

(** ** The routes *)

(** C9.  A route answers its request with one response and writes at most
    one document of the collection (it appends one, replaces one or removes
    one); it sends nothing to any client and leaves the channel set and the
    stream as they were.  Whatever is put on the wire is put there on a
    change event, by the change listener. *)
Theorem routes_do_not_notify_clients st req now fault :
  let after := handle req now fault st in
  wire after = wire st
  ∧ (∀ s, received s after = received s st)
  ∧ sockets after = sockets st
  ∧ stream after = stream st
  ∧ (∃ r, replies after = replies st ++ [r])
  ∧ (orders after = orders st
     ∨ (∃ d, orders after = orders st ++ [d])
     ∨ (∃ p d, orders after = replace_first p d (orders st))
     ∨ (∃ p, orders after = remove_first p (orders st)))
  ∧ ∀ st0 ev, wire (step st0 ev) ≠ wire st0 → ∃ raw, ev = Upstream raw.
Proof.
  intros after. subst after.
  destruct (handle_frame req now fault st) as (Hw & Hso & _ & Hst).
  repeat split; try done.
  - intros s. unfold received. by rewrite Hw.
  - destruct req as [body| |id body|id]; simpl;
      unfold post_orders, get_orders, put_orders_id, delete_orders_id.
    + destruct (Order_create _ _ _) as [[?|?] ?]; simpl; eauto.
    + destruct (Order_find_sorted _ _); simpl; eauto.
    + destruct (Order_findOneAndUpdate _ _ _ _) as [[o|?] ?]; simpl; eauto.
      destruct (negb (truthy o)); simpl; eauto.
    + destruct (Order_findOneAndDelete _ _ _) as [[o|?] ?]; simpl; eauto.
      destruct (negb (truthy o)); simpl; eauto.
  - destruct req as [body| |id body|id]; simpl;
      unfold post_orders, get_orders, put_orders_id, delete_orders_id.
    + unfold Order_create.
      destruct (new_document _ _); [destruct fault|]; simpl; eauto.
    + destruct (Order_find_sorted _ _); simpl; eauto.
    + unfold Order_findOneAndUpdate.
      destruct (isNaN _); simpl; eauto.
      destruct (castUpdate _); simpl; eauto.
      destruct fault; simpl; eauto.
      destruct (find _ _); simpl; eauto.
      destruct (updated_document _ _ _); simpl; eauto 10.
    + unfold Order_findOneAndDelete.
      destruct (isNaN _); simpl; eauto.
      destruct fault; simpl; eauto.
      destruct (find _ _); simpl; eauto 10.
  - intros st0 ev Hne.
    destruct ev as [s'|s'|s'|raw|err| |req' now' fault']; eauto;
      exfalso; apply Hne; by apply step_wire.
Qed.

(** ** The record of a change *)

Lemma step_upstream_received st options raw s :
  stream st = Open options → s ∈ sockets st → s ∉ gone st →
  received s (step st (Upstream raw))
  = received s st ++ [record (change_event options (orders st) raw)].
Proof.
  intros Hs Hin Hlive. rewrite (step_open _ _ _ Hs), on_change_received.
  by rewrite decide_True.
Qed.


Lemma payload_ignores_token token change :
  payload (assign "_id" token change) = payload change.
Proof. unfold payload. by rewrite !prop_assign_ne. Qed.

Lemma or_null_defined (v : value) :
  (if truthy v then v else VNull) ≠ VUndefined.
Proof. destruct (truthy v) eqn:Hv; [|done]. by intros ->. Qed.

Lemma order_changed_mono changes changes' p :
  changes ⊆ changes' → order_changed changes p → order_changed changes' p.
Proof.
  intros Hsub (Hname & change & Hin & Hrest).
  split; [done|]. exists change. split; [by apply Hsub|done].
Qed.

Lemma sends_order_changed changes change g l :
  change ∈ changes →
  Forall (order_changed changes)
         (sends "orderChanged" (VObj (payload change)) g l).
Proof.
  intros Hin. unfold sends. apply Forall_fmap, Forall_forall. intros s _.
  split; [done|]. exists change. simpl. repeat split; try done.
  - apply or_null_defined.
  - apply or_null_defined.
  - intros token. by rewrite payload_ignores_token.
Qed.

Lemma step_order_changed changes st ev :
  Forall (order_changed changes) (wire st) →
  Forall (order_changed (changes ++ feed st ev)) (wire (step st ev)).
Proof.
  intros Hall.
  assert (Forall (order_changed (changes ++ feed st ev)) (wire st)) as Hold.
  { eapply Forall_impl; [exact Hall|]. intros p.
    apply order_changed_mono. set_solver. }
  assert ((∃ raw, ev = Upstream raw) ∨ ∀ raw, ev ≠ Upstream raw) as [[raw ->]|Hev]
    by (destruct ev; eauto).
  - unfold feed in *. unfold_step.
    destruct (stream st) eqn:Hs; simpl in *; try done.
    unfold on_change, io_emit. rewrite foldl_send_wire. simpl.
    apply Forall_app. split; [done|].
    apply sends_order_changed. set_solver.
  - by rewrite step_wire.
Qed.

Lemma run_order_changed changes st evs :
  Forall (order_changed changes) (wire st) →
  Forall (order_changed (changes ++ dispatched st evs)) (wire (run st evs)).
Proof.
  revert changes st. induction evs as [|ev evs IH]; intros changes st Hall.
  - simpl. by rewrite app_nil_r.
  - simpl. rewrite app_assoc. apply IH. by apply step_order_changed.
Qed.

(** C5.  Along every run of the server every message sent to a client is
    an [orderChanged] message, and its data is the record of one of the
    change events the listener was called with: an object with exactly the
    properties [op], [ns], [documentKey], [fullDocument] and
    [updateDescription], the first three being the event's operation type,
    namespace and key, the last two the event's document and update
    description when it has them and null otherwise, never undefined.  The
    event's [_id], its resume token, is not among the properties and has no
    influence on the data. *)
Theorem pushes_are_order_changed connected port evs :
  let st := start connected port init in
  Forall (order_changed (dispatched st evs)) (wire (run st evs)).
Proof.
  intros st.
  apply (run_order_changed [] st evs).
  subst st. destruct connected; simpl; constructor.
Qed.

(** The record of a change event that carries no full document. *)
Lemma record_without_document options db raw :
  truthy (prop "fullDocument" (change_event options db raw)) = false →
  record (change_event options db raw)
  = VObj [ ("op", prop "operationType" raw);
           ("ns", prop "ns" raw);
           ("documentKey", prop "documentKey" raw);
           ("fullDocument", VNull);
           ("updateDescription", js_or (prop "updateDescription" raw) VNull) ].
Proof.
  intros Hnone. unfold record, payload, js_or at 1. rewrite Hnone.
  by rewrite !change_event_prop.
Qed.

Lemma is_str_inj s s' v : is_str s v = true → is_str s' v = true → s = s'.
Proof.
  destruct v; simpl; try done.
  intros ->%String.eqb_eq ->%String.eqb_eq. done.
Qed.

(** C6.  A change event without a full document is not dropped: a
    connected client receives its record, with [fullDocument] null and the
    other properties as the event has them.  This is the case of a delete
    event, which carries no document, and of an update event whose lookup
    finds no document; there the description of the update is forwarded
    when the event has one. *)
Theorem event_without_document_is_delivered_with_null st options raw s :
  stream st = Open options → s ∈ sockets st → s ∉ gone st →
  let after := step st (Upstream raw) in
  let pushed :=
    VObj [ ("op", prop "operationType" raw);
           ("ns", prop "ns" raw);
           ("documentKey", prop "documentKey" raw);
           ("fullDocument", VNull);
           ("updateDescription", js_or (prop "updateDescription" raw) VNull) ] in
  (truthy (prop "fullDocument" (change_event options (orders st) raw)) = false →
   received s after = received s st ++ [pushed])
  ∧ (is_str "delete" (prop "operationType" raw) = true →
     prop "fullDocument" raw = VUndefined →
     received s after = received s st ++ [pushed])
  ∧ (options = watch_options →
     is_str "update" (prop "operationType" raw) = true →
     findOne_by_key (orders st) (prop "documentKey" raw) = VNull →
     received s after = received s st ++ [pushed]
     ∧ ∀ description, prop "updateDescription" raw = VObj description →
         get "updateDescription" pushed = VObj description).
Proof.
  intros Hs Hin Hlive after pushed. subst after pushed.
  rewrite (step_upstream_received _ _ _ _ Hs Hin Hlive).
  split; [|split].
  - intros Hnone. by rewrite record_without_document.
  - intros Hop Hnone. rewrite record_without_document; [done|].
    unfold change_event.
    destruct (is_str "update" _) eqn:Hup; simpl.
    + by pose proof (is_str_inj _ _ _ Hop Hup).
    + by rewrite Hnone.
  - intros -> Hop Hlookup. split.
    + rewrite record_without_document; [done|].
      unfold change_event. rewrite Hop. simpl.
      by rewrite prop_assign_eq, Hlookup.
    + intros description Hd. simpl. by rewrite Hd.
Qed.

(** ** A request for an order that is not there *)

(** C10, as amended.  A request to PUT or DELETE /orders/:id leaves the
    collection, and everything else, as it was and is answered
    - 404 with [{ message: 'Not found' }] when [:id] reads as a number that
      no stored order has, the store call not failing (for PUT: the body
      casting against the schema);
    - with the catch branch when [:id] does not read as a number: the cast
      of the filter fails, PUT answers 400 and DELETE answers 500, both
      with the message of the cast error. *)
Theorem unmatched_id_writes_nothing st id body now fault :
  let update := assign "updated_at" (VDate now) (spread body) in
  let cast_error := CastError "id" (VNum (Number id)) in
  (isNaN (Number id) = false →
   find (matches_id (Number id)) (orders st) = None →
   (∀ u, castUpdate update = Return u →
         put_orders_id id body now None st = reply 404 not_found st)
   ∧ delete_orders_id id None st = reply 404 not_found st)
  ∧ (isNaN (Number id) = true →
     put_orders_id id body now fault st = reply 400 (failure cast_error) st
     ∧ delete_orders_id id fault st = reply 500 (failure cast_error) st).
Proof.
  intros update cast_error. subst update cast_error.
  unfold put_orders_id, delete_orders_id, Order_findOneAndUpdate,
    Order_findOneAndDelete.
  split.
  - intros -> ->. split.
    + intros u ->. by destruct st.
    + by destruct st.
  - intros ->. by destruct st.
Qed.

End Properties.

(** * Further properties of [server.js] *)

Section Further.
Context `{Host} `{Mongoose}.

Ltac unfold_turn :=
  unfold step, connect, disconnect, emit_change, emit_error, emit_close.

(** ** [start] *)

Lemma step_idle st ev : stream st = Idle → step st ev = st.
Proof. intros Hs. unfold step. by rewrite Hs. Qed.

(** X1.  When [mongoose.connect] rejects, [start] prints "Failed to start"
    with the error and nothing more happens: the stream is never opened,
    [server.listen] is never reached, and whatever comes afterwards leaves
    the server as it is. *)
Theorem failed_start_never_listens err port evs :
  let st := start (Throw err) port init in
  console st = [(Error, [VStr "Failed to start"; err])]
  ∧ stream st = Idle
  ∧ run st evs = st.
Proof.
  simpl. repeat split.
  induction evs as [|ev evs IH]; [done|].
  simpl. by rewrite step_idle.
Qed.

Lemma step_stream st ev :
  stream (step st ev) = stream st ∨ stream (step st ev) = Closed.
Proof.
  unfold_turn. destruct (stream st) eqn:Hs; [by left| |];
    destruct ev as [s|s|s|raw|err| |req now fault]; simpl; auto;
    try (case_decide; simpl; auto);
    try (destruct (handle_frame req now fault st) as (_ & _ & _ & ->); auto).
  destruct (on_change_frame (change_event options (orders st) raw) st)
    as (_ & _ & -> & _). auto.
Qed.

(** X2.  After a successful [start] the stream is open with the option
    [fullDocument: 'updateLookup'], and along every run it is either still
    open with that option or closed: every change event the listener is
    called with has gone through the lookup stage under that option. *)
Theorem started_stream_keeps_its_options port evs :
  let st := start (Return ()) port init in
  stream st = Open watch_options
  ∧ (stream (run st evs) = Open watch_options ∨ stream (run st evs) = Closed)
  ∧ Forall (fun change => ∃ db raw, change = change_event watch_options db raw)
           (dispatched st evs).
Proof.
  intros st. split; [done|].
  assert (stream st = Open watch_options ∨ stream st = Closed) as Hinv
    by (by left).
  clearbody st. revert st Hinv.
  induction evs as [|ev evs IH]; intros st Hinv; [by split|].
  assert (stream (step st ev) = Open watch_options
          ∨ stream (step st ev) = Closed) as Hnext.
  { destruct (step_stream st ev) as [->| ->]; auto. }
  destruct (IH _ Hnext) as [Hrun Hall]. split; [exact Hrun|].
  simpl. apply Forall_app. split; [|exact Hall].
  unfold feed. destruct Hinv as [-> | ->]; [|done].
  destruct ev; try done. constructor; [eauto|done].
Qed.

(** ** Requests *)

Lemma handle_replies req now fault st :
  ∃ r, replies (handle req now fault st) = replies st ++ [r].
Proof.
  destruct req as [body| |id body|id]; simpl;
    unfold post_orders, get_orders, put_orders_id, delete_orders_id.
  - destruct (Order_create _ _ _) as [[?|?] ?]; simpl; eauto.
  - destruct (Order_find_sorted _ _); simpl; eauto.
  - destruct (Order_findOneAndUpdate _ _ _ _) as [[o|?] ?]; simpl; eauto.
    destruct (negb (truthy o)); simpl; eauto.
  - destruct (Order_findOneAndDelete _ _ _) as [[o|?] ?]; simpl; eauto.
    destruct (negb (truthy o)); simpl; eauto.
Qed.

Lemma step_replies st ev :
  stream st ≠ Idle →
  stream (step st ev) ≠ Idle
  ∧ length (replies (step st ev))
    = length (replies st) + (if is_request ev then 1 else 0).
Proof.
  intros Hs. split.
  { destruct (step_stream st ev) as [->| ->]; done. }
  unfold_turn. destruct (stream st) eqn:Hst; [done| |];
    destruct ev as [s|s|s|raw|err| |req now fault]; simpl;
    try (case_decide; simpl); try lia;
    try (destruct (handle_replies req now fault st) as [r ->];
         rewrite length_app; simpl; lia).
  destruct (on_change_frame (change_event options (orders st) raw) st)
    as (_ & _ & _ & ->). lia.
Qed.

(** X3.  Once the server listens, every request is answered exactly once,
    whatever the store does and whatever else happens: along any run the
    number of responses sent grows by the number of requests received. *)
Theorem every_request_is_answered_once st evs :
  stream st ≠ Idle →
  length (replies (run st evs))
  = length (replies st) + length (filter (fun ev => is_request ev = true) evs).
Proof.
  revert st. induction evs as [|ev evs IH]; intros st Hs; simpl; [lia|].
  destruct (step_replies st ev Hs) as [Hs' Hlen].
  fold (run (step st ev) evs). rewrite (IH _ Hs'), Hlen, filter_cons.
  destruct (is_request ev); case_decide; try done; simpl; lia.
Qed.

(** X4.  The collection is written by the POST, PUT and DELETE routes only:
    GET /orders, a change event, a connection or disconnection and an error
    or close of the stream leave it as it is. *)
Theorem only_writes_change_the_collection st ev :
  writes ev = false → orders (step st ev) = orders st.
Proof.
  intros Hev. unfold_turn. destruct (stream st) eqn:Hs; [done| |];
    destruct ev as [s|s|s|raw|err| |[body| |id body|id] now fault];
    simpl in *; try done; try (by case_decide);
    try (unfold get_orders; by destruct (Order_find_sorted _ _)).
  by destruct (on_change_frame (change_event options (orders st) raw) st)
    as (_ & -> & _).
Qed.

(** X5.  POST /orders answers 201 with the order that was stored, which is
    then the last document of the collection, or 400 with the message of
    the error; in the second case the collection is unchanged and the error
    is printed (line 39). *)
Theorem post_orders_outcomes req_body now fault st :
  let after := post_orders req_body now fault st in
  ∃ r, replies after = replies st ++ [r]
       ∧ ((status r = 201
           ∧ ∃ d, body r = VObj d
                  ∧ orders after = orders st ++ [d]
                  ∧ console after = console st)
          ∨ (status r = 400
             ∧ ∃ err, body r = failure err
                      ∧ orders after = orders st
                      ∧ console after = console st ++ [(Error, [err])])).
Proof.
  unfold post_orders, Order_create.
  destruct (new_document _ _) as [d|err]; [destruct fault as [err|]|]; simpl;
    eexists; (split; [reflexivity|]); simpl; eauto 10.
Qed.

(** ** The timestamp of a write *)

Lemma assign_assign k v v' (o : obj) :
  assign k v (assign k v' o) = assign k v o.
Proof.
  induction o as [|[k0 v0] o IH]; simpl.
  - by rewrite String.eqb_refl.
  - destruct (String.eqb k0 k) eqn:Hk; simpl.
    + by rewrite String.eqb_refl.
    + by rewrite Hk, IH.
Qed.

Lemma keys_assign_present k v (o : obj) :
  k ∈ keys o → keys (assign k v o) = keys o.
Proof.
  unfold keys. induction o as [|[k0 v0] o IH]; simpl.
  - by intros ?%elem_of_nil.
  - destruct (String.eqb_spec k0 k) as [->|Hk]; simpl; [done|].
    intros [?|Hin]%elem_of_cons; [congruence|]. f_equal. by apply IH.
Qed.

Lemma keys_assign_absent k v (o : obj) :
  k ∉ keys o → keys (assign k v o) = keys o ++ [k].
Proof.
  unfold keys. induction o as [|[k0 v0] o IH]; simpl; [done|].
  destruct (String.eqb_spec k0 k) as [->|Hk]; simpl.
  - intros Hout. exfalso. apply Hout. by left.
  - intros Hout. f_equal. apply IH. intros Hin. apply Hout. by right.
Qed.

(** X6.  The value a client gives for [updated_at] is ignored.  Setting
    [updated_at] in a body (replacing the value where the body has the
    property, adding it last where it has none) changes nothing in what
    POST and PUT do, whatever the value: they do the same for any two
    values, the same as for the body itself, and the same as for the body
    without the property when it was added last.  The document handed to
    the store has [updated_at] at the time of the request, in the place
    the body had it and last when the body had none, and every other
    property as the body has it (lines 35 and 58). *)
Theorem client_timestamp_is_overridden (o : obj) v v' id now fault st :
  post_orders (VObj (assign "updated_at" v o)) now fault st
  = post_orders (VObj (assign "updated_at" v' o)) now fault st
  ∧ put_orders_id id (VObj (assign "updated_at" v o)) now fault st
    = put_orders_id id (VObj (assign "updated_at" v' o)) now fault st
  ∧ post_orders (VObj (assign "updated_at" v o)) now fault st
    = post_orders (VObj o) now fault st
  ∧ put_orders_id id (VObj (assign "updated_at" v o)) now fault st
    = put_orders_id id (VObj o) now fault st
  ∧ ("updated_at" ∉ keys o →
     post_orders (VObj (o ++ [("updated_at", v)])) now fault st
     = post_orders (VObj o) now fault st
     ∧ put_orders_id id (VObj (o ++ [("updated_at", v)])) now fault st
       = put_orders_id id (VObj o) now fault st)
  ∧ ∀ sent : value,
      let doc := assign "updated_at" (VDate now) (spread sent) in
      prop "updated_at" doc = VDate now
      ∧ (∀ k, k ≠ "updated_at" → prop k doc = prop k (spread sent))
      ∧ ("updated_at" ∈ keys (spread sent) → keys doc = keys (spread sent))
      ∧ ("updated_at" ∉ keys (spread sent) →
         keys doc = keys (spread sent) ++ ["updated_at"]).
Proof.
  unfold post_orders, put_orders_id. simpl. rewrite !assign_assign.
  split; [done|]. split; [done|]. split; [done|]. split; [done|]. split.
  - intros Hout.
    assert (o ++ [("updated_at", v)] = assign "updated_at" v o) as ->.
    { clear -Hout. unfold keys in Hout.
      induction o as [|[k0 v0] o IH]; simpl; [done|].
      destruct (String.eqb_spec k0 "updated_at") as [->|Hk].
      - exfalso. apply Hout. simpl. by left.
      - rewrite IH; [done|]. intros Hin. apply Hout. simpl. by right. }
    by rewrite assign_assign.
  - intros sent. repeat split.
    + apply prop_assign_eq.
    + intros k Hk. by apply prop_assign_ne.
    + apply keys_assign_present.
    + apply keys_assign_absent.
Qed.

(** ** PUT and DELETE on a stored order *)

Lemma length_replace_first p d' (db : list obj) :
  length (replace_first p d' db) = length db.
Proof.
  induction db as [|d db IH]; simpl; [done|].
  destruct (p d); simpl; by rewrite ?IH.
Qed.

Lemma replace_first_elem p d' (db : list obj) d :
  find p db = Some d → d' ∈ replace_first p d' db.
Proof.
  induction db as [|d0 db IH]; simpl; [done|].
  destruct (p d0); [intros _; set_solver|].
  intros Hfind. apply list_elem_of_further. by apply IH.
Qed.

Lemma length_remove_first p (db : list obj) d :
  find p db = Some d → S (length (remove_first p db)) = length db.
Proof.
  induction db as [|d0 db IH]; simpl; [done|].
  destruct (p d0); [done|].
  intros Hfind. simpl. by rewrite IH.
Qed.

(** X7.  PUT /orders/:id never changes the number of stored orders (no
    upsert) and prints nothing.  It answers 200 with a document that is
    then stored, or 404 with [{ message: 'Not found' }], or 400 with the
    message of the error; in the last two cases the collection is
    unchanged. *)
Theorem put_orders_id_outcomes id req_body now fault st :
  let after := put_orders_id id req_body now fault st in
  length (orders after) = length (orders st)
  ∧ console after = console st
  ∧ ∃ r, replies after = replies st ++ [r]
         ∧ ((status r = 200 ∧ ∃ d, body r = VObj d ∧ d ∈ orders after)
            ∨ (status r = 404 ∧ body r = not_found
               ∧ orders after = orders st)
            ∨ (status r = 400 ∧ (∃ err, body r = failure err)
               ∧ orders after = orders st)).
Proof.
  unfold put_orders_id, Order_findOneAndUpdate.
  destruct (isNaN _); simpl; [eauto 10|].
  destruct (castUpdate _) as [u|?]; simpl; [|eauto 10].
  destruct fault as [?|]; simpl; [eauto 10|].
  destruct (find _ _) as [d|] eqn:Hfind; simpl; [|eauto 10].
  destruct (updated_document _ _ _) as [d'|?]; simpl; [|eauto 10].
  rewrite length_replace_first. repeat split.
  eexists. split; [reflexivity|]. left. split; [done|].
  exists d'. split; [done|]. by eapply replace_first_elem.
Qed.

(** X8.  DELETE /orders/:id prints nothing and removes at most one order.
    It answers 200 with [{ message: 'deleted', id }], [id] being the number
    read from the path, and then exactly one order, the first that has this
    [id], is gone; or 404 with [{ message: 'Not found' }]; or 500 with the
    message of the error; in the last two cases the collection is
    unchanged. *)
Theorem delete_orders_id_outcomes id fault st :
  let after := delete_orders_id id fault st in
  console after = console st
  ∧ ∃ r, replies after = replies st ++ [r]
         ∧ ((status r = 200
             ∧ body r = VObj [("message", VStr "deleted");
                              ("id", VNum (Number id))]
             ∧ orders after = remove_first (matches_id (Number id)) (orders st)
             ∧ S (length (orders after)) = length (orders st))
            ∨ (status r = 404 ∧ body r = not_found
               ∧ orders after = orders st)
            ∨ (status r = 500 ∧ (∃ err, body r = failure err)
               ∧ orders after = orders st)).
Proof.
  unfold delete_orders_id, Order_findOneAndDelete.
  destruct (isNaN _); simpl; [eauto 10|].
  destruct fault as [?|]; simpl; [eauto 10|].
  destruct (find _ _) as [d|] eqn:Hfind; simpl; [|eauto 10].
  split; [done|]. eexists. split; [reflexivity|]. left.
  repeat split. by eapply length_remove_first.
Qed.

Lemma find_filter_nil (p : obj → bool) (db : list obj) :
  filter (fun d => p d = true) db = [] → find p db = None.
Proof.
  induction db as [|d0 db IH]; simpl; [done|].
  rewrite filter_cons. destruct (p d0); case_decide; done.
Qed.

Lemma find_unique (p : obj → bool) (db : list obj) d :
  filter (fun d => p d = true) db = [d] →
  find p db = Some d ∧ find p (remove_first p db) = None.
Proof.
  induction db as [|d0 db IH]; simpl; [done|].
  rewrite filter_cons. destruct (p d0) eqn:Hp; case_decide; try done.
  - intros [= -> Hrest]. split; [done|]. by apply find_filter_nil.
  - intros Hrest. simpl. rewrite Hp. by apply IH.
Qed.

(** X9.  When exactly one stored order has the [id] of the path, as the
    unique index on [id] provides, DELETE /orders/:id answers 200 and a
    second DELETE of the same path answers 404 and changes nothing. *)
Theorem delete_twice_is_not_found id st d :
  isNaN (Number id) = false →
  filter (fun d => matches_id (Number id) d = true) (orders st) = [d] →
  let once := delete_orders_id id None st in
  replies once
  = replies st
    ++ [Response 200 (VObj [("message", VStr "deleted");
                            ("id", VNum (Number id))])]
  ∧ delete_orders_id id None once = reply 404 not_found once.
Proof.
  intros Hnum Hone. destruct (find_unique _ _ _ Hone) as [Hfind Hgone].
  unfold delete_orders_id, Order_findOneAndDelete.
  rewrite Hnum, Hfind. simpl. split; [done|].
  by rewrite Hgone.
Qed.

(** ** The change listener *)

(** X10.  A change event that is not an update and carries a document, as
    an insert or a replace does, is delivered to a connected client with
    that document as [fullDocument] and with its operation type, namespace
    and key unchanged; the listener does not look at the operation type. *)
Theorem event_with_document_is_delivered_with_it st options raw s :
  stream st = Open options → s ∈ sockets st → s ∉ gone st →
  is_str "update" (prop "operationType" raw) = false →
  truthy (prop "fullDocument" raw) = true →
  received s (step st (Upstream raw))
  = received s st
    ++ [ VObj [ ("op", prop "operationType" raw);
                ("ns", prop "ns" raw);
                ("documentKey", prop "documentKey" raw);
                ("fullDocument", prop "fullDocument" raw);
                ("updateDescription",
                   js_or (prop "updateDescription" raw) VNull) ] ].
Proof.
  intros Hs Hin Hlive Hop Hdoc.
  rewrite (step_upstream_received _ _ _ _ Hs Hin Hlive).
  unfold change_event. rewrite Hop. simpl.
  unfold record, payload, js_or at 1. by rewrite Hdoc.
Qed.

Lemma foldl_send_lines name v l st :
  filter (fun e => is_change_line e = true) (console (foldl (send name v) st l))
  = filter (fun e => is_change_line e = true) (console st).
Proof.
  revert st. induction l as [|s l IH]; intros st; simpl; [done|].
  rewrite IH. unfold send. case_decide; simpl; [|done].
  rewrite filter_app, filter_cons. simpl. by rewrite ?filter_nil, app_nil_r.
Qed.

Lemma handle_lines req now fault st :
  filter (fun e => is_change_line e = true) (console (handle req now fault st))
  = filter (fun e => is_change_line e = true) (console st).
Proof.
  destruct req as [body0| |id body0|id]; simpl;
    unfold post_orders, get_orders, put_orders_id, delete_orders_id.
  - destruct (Order_create _ _ _) as [[?|?] ?]; simpl; [done|].
    rewrite filter_app, filter_cons. simpl.
    by rewrite ?filter_nil, app_nil_r.
  - by destruct (Order_find_sorted _ _).
  - destruct (Order_findOneAndUpdate _ _ _ _) as [[o|?] ?]; [|done].
    by destruct (negb (truthy o)).
  - destruct (Order_findOneAndDelete _ _ _) as [[o|?] ?]; [|done].
    by destruct (negb (truthy o)).
Qed.

Lemma step_lines st ev :
  filter (fun e => is_change_line e = true) (console (step st ev))
  = filter (fun e => is_change_line e = true) (console st)
    ++ (change_line <$> feed st ev).
Proof.
  unfold feed. unfold_turn.
  destruct (stream st) eqn:Hs; simpl; [by rewrite app_nil_r| |];
    destruct ev as [s|s|s|raw|err| |req now fault]; simpl;
    rewrite ?app_nil_r; try done;
    try (case_decide; simpl; [|done]);
    try (rewrite filter_app, filter_cons; simpl;
         by rewrite ?filter_nil, app_nil_r);
    try apply handle_lines.
  unfold on_change, io_emit. rewrite foldl_send_lines. simpl.
  rewrite filter_app, filter_cons. simpl. by rewrite ?filter_nil.
Qed.

(** X11.  The console carries one "Change detected:" line per change event
    the listener was called with, in the order of the calls and with the
    operation type of each; nothing else prints such a line. *)
Theorem one_line_per_change st evs :
  filter (fun e => is_change_line e = true) (console (run st evs))
  = filter (fun e => is_change_line e = true) (console st)
    ++ (change_line <$> dispatched st evs).
Proof.
  revert st. induction evs as [|ev evs IH]; intros st; simpl.
  - by rewrite app_nil_r.
  - fold (run (step st ev) evs).
    by rewrite IH, step_lines, fmap_app, app_assoc.
Qed.

(** X12.  When the open change stream closes, the close listener prints
    the warning "Change stream closed" and does nothing else (lines
    124-127): nothing reopens the stream, and whatever happens afterwards
    the change listener is not called and no client receives anything. *)
Theorem stream_close_ends_delivery st options :
  stream st = Open options →
  let closed := step st StreamClose in
  console closed = console st ++ [(Warn, [VStr "Change stream closed"])]
  ∧ stream closed = Closed
  ∧ ∀ evs s, stream (run closed evs) = Closed
             ∧ dispatched closed evs = []
             ∧ received s (run closed evs) = received s st.
Proof.
  intros Hs closed. subst closed. rewrite (step_open _ _ _ Hs). simpl.
  repeat split; try done.
  - by apply run_closed.
  - by apply run_closed.
  - unfold received.
    by destruct (run_closed (set_stream Closed (on_close st)) evs eq_refl)
      as (_ & -> & _).
Qed.

(** ** The response of a route *)

(** X13.  The response of each of the four routes is decided by the
    outcome of its one store call: when the call rejects, the catch branch
    answers 400 (POST, PUT) or 500 (GET, DELETE) with [{ error: m }], [m]
    being the message of the very error the call rejected with; when it
    resolves, POST answers 201 and GET 200 with the result, and PUT and
    DELETE answer 200, or 404 with [{ message: 'Not found' }] when the
    result is null.  No route answers with any other status. *)
Theorem responses_follow_the_store_call req now fault st :
  let called := store_call req now fault (orders st) in
  replies (handle req now fault st) = replies st ++ [answer req called]
  ∧ status (answer req called) ∈ [200; 201; 400; 404; 500]
  ∧ (∀ err, called = Throw err →
       body (answer req called) = VObj [("error", get "message" err)]
       ∧ status (answer req called)
         = match req with
           | POST_orders _ | PUT_orders_id _ _ => 400
           | GET_orders | DELETE_orders_id _ => 500
           end)
  ∧ (∀ result, called = Return result →
       status (answer req called) ≠ 400 ∧ status (answer req called) ≠ 500)
  ∧ (status (answer req called) = 404 →
     body (answer req called) = VObj [("message", VStr "Not found")]).
Proof.
  intros called. subst called.
  destruct req as [sent| |id sent|id]; simpl;
    unfold post_orders, get_orders, put_orders_id, delete_orders_id.
  - destruct (Order_create _ _ _) as [[order|err] db]; simpl;
      (split; [done|]); (split; [set_solver|]);
      (split; [by intros ? [= <-]|]); (split; [by intros ? [= <-]|]); done.
  - destruct (Order_find_sorted _ _) as [found|err]; simpl;
      (split; [done|]); (split; [set_solver|]);
      (split; [by intros ? [= <-]|]); (split; [by intros ? [= <-]|]); done.
  - destruct (Order_findOneAndUpdate _ _ _ _) as [[order|err] db]; simpl;
      [destruct (truthy order); simpl|];
      (split; [done|]); (split; [set_solver|]);
      (split; [by intros ? [= <-]|]); (split; [by intros ? [= <-]|]); done.
  - destruct (Order_findOneAndDelete _ _ _) as [[result|err] db]; simpl;
      [destruct (truthy result); simpl|];
      (split; [done|]); (split; [set_solver|]);
      (split; [by intros ? [= <-]|]); (split; [by intros ? [= <-]|]); done.
Qed.

End Further.

(** * The properties on the concrete host *)

#[local] Existing Instance Sample.host.
#[local] Existing Instance Sample.store.

(** Membership in a concrete set holds by evaluation. *)
Ltac member := by vm_compute.

(** The three change events of order 200 reach alice as three records, in
    that order. *)
Example alice_receives_in_order :
  get "op" <$> received "alice"
                 (run Sample.online
                    (Upstream <$> [Sample.inserted; Sample.updated; Sample.deleted]))
  = [VStr "insert"; VStr "update"; VStr "delete"].
Proof. reflexivity. Qed.

(** PUT /orders/200 with status shipped, then the update event: the record
    alice receives has the shipped document, not the pending one. *)
Example put_then_update_event :
  received "alice" (step Sample.after_put (Upstream Sample.updated))
  = [ VObj [ ("op", VStr "update"); ("ns", Sample.ns_orders);
             ("documentKey", Sample.key200);
             ("fullDocument", VObj Sample.shipped200);
             ("updateDescription", Sample.shipped) ] ].
Proof. reflexivity. Qed.

Lemma upstream_order_preserved_witness :
  let raws := [Sample.inserted; Sample.updated; Sample.deleted] in
  stream Sample.online = Open watch_options
  ∧ ("alice" ∈ sockets Sample.online)
  ∧ ("alice" ∉ gone Sample.online)
  ∧ received "alice" (run Sample.online (Upstream <$> raws))
    = received "alice" Sample.online
      ++ ((fun raw => record (change_event watch_options (orders Sample.online) raw))
            <$> raws).
Proof.
  intros raws.
  split; [reflexivity|]. split; [member|]. split; [member|].
  destruct (upstream_order_preserved Sample.online watch_options "alice" raws)
    as (Hall & _ & _); [reflexivity|member|member|].
  exact Hall.
Defined.

Lemma broadcast_reaches_exactly_the_active_set_witness :
  let after := step Sample.online (Upstream Sample.inserted) in
  stream Sample.online = Open watch_options
  ∧ ("alice" ∈ sockets Sample.online)
  ∧ ("alice" ∈ sockets after)
  ∧ received "alice" after
    = received "alice" Sample.online
      ++ [record (change_event watch_options (orders Sample.online)
                    Sample.inserted)].
Proof.
  intros after.
  split; [reflexivity|]. split; [member|]. split; [member|].
  destruct (broadcast_reaches_exactly_the_active_set Sample.online
              watch_options Sample.inserted "alice" eq_refl)
    as (_ & Hstill & _).
  apply Hstill; member.
Defined.

Lemma stream_error_ends_delivery_witness :
  stream Sample.online = Open watch_options
  ∧ ∀ evs s,
      stream (run (step Sample.online (StreamError (VStr "cursor killed"))) evs)
      = Closed
      ∧ dispatched (step Sample.online (StreamError (VStr "cursor killed"))) evs
        = []
      ∧ received s
          (run (step Sample.online (StreamError (VStr "cursor killed"))) evs)
        = received s Sample.online.
Proof.
  split; [reflexivity|].
  destruct (stream_error_ends_delivery Sample.online watch_options
              (VStr "cursor killed") eq_refl) as (_ & _ & _ & Hafter).
  exact Hafter.
Defined.


Lemma event_without_document_is_delivered_with_null_witness :
  stream Sample.online = Open watch_options
  ∧ ("alice" ∈ sockets Sample.online)
  ∧ ("alice" ∉ gone Sample.online)
  ∧ is_str "delete" (prop "operationType" Sample.deleted) = true
  ∧ prop "fullDocument" Sample.deleted = VUndefined
  ∧ received "alice" (step Sample.online (Upstream Sample.deleted))
    = received "alice" Sample.online
      ++ [ VObj [ ("op", VStr "delete"); ("ns", Sample.ns_orders);
                  ("documentKey", Sample.key200);
                  ("fullDocument", VNull); ("updateDescription", VNull) ] ].
Proof.
  split; [reflexivity|]. split; [member|]. split; [member|].
  split; [reflexivity|]. split; [reflexivity|].
  destruct (event_without_document_is_delivered_with_null Sample.online
              watch_options Sample.deleted "alice")
    as (_ & Hdelete & _); [reflexivity|member|member|].
  apply Hdelete; reflexivity.
Defined.

Lemma send_failure_is_local_witness :
  stream Sample.bob_lost = Open watch_options
  ∧ ("bob" ∈ sockets Sample.bob_lost)
  ∧ ("bob" ∈ gone Sample.bob_lost)
  ∧ ("bob" ∉ sockets (step Sample.bob_lost (Upstream Sample.inserted)))
  ∧ ("alice" ∈ sockets Sample.bob_lost → "alice" ∉ gone Sample.bob_lost →
     ("alice" ∈ sockets (step Sample.bob_lost (Upstream Sample.inserted)))
     ∧ received "alice" (step Sample.bob_lost (Upstream Sample.inserted))
       = received "alice" Sample.bob_lost
         ++ [record (change_event watch_options (orders Sample.bob_lost)
                       Sample.inserted)]).
Proof.
  destruct (send_failure_is_local Sample.bob_lost watch_options Sample.inserted
              "bob") as (Hout & _ & _ & _ & _ & _ & Hothers);
    [reflexivity|member|member|].
  split; [reflexivity|]. split; [member|]. split; [member|]. split; [exact Hout|].
  intros Hin Hlive. by apply Hothers.
Defined.

Lemma unmatched_id_writes_nothing_witness :
  isNaN (Number "999") = false
  ∧ find (matches_id (Number "999")) (orders Sample.online) = None
  ∧ put_orders_id "999" (VObj [("status", VStr "shipped")]) 2000 None Sample.online
    = reply 404 not_found Sample.online
  ∧ delete_orders_id "999" None Sample.online = reply 404 not_found Sample.online.
Proof.
  destruct (unmatched_id_writes_nothing Sample.online "999"
              (VObj [("status", VStr "shipped")]) 2000 None)
    as [Hnumber _].
  destruct Hnumber as [Hput Hdelete]; [reflexivity|reflexivity|].
  split; [reflexivity|]. split; [reflexivity|]. split; [|exact Hdelete].
  apply (Hput (assign "updated_at" (VDate 2000)
                 (spread (VObj [("status", VStr "shipped")])))).
  reflexivity.
Defined.

(** C10 as stated fails on a path segment that is not a number: [Number]
    gives NaN, the cast of the filter [{ id }] throws, and the catch branch
    answers 400 for PUT and 500 for DELETE instead of 404. *)
Lemma non_numeric_id_is_not_answered_404 :
  let body := VObj [("status", VStr "shipped")] in
  let message := VStr "Cast to Number failed at path id" in
  isNaN (Number "abc") = true
  ∧ last (replies (put_orders_id "abc" body 2000 None Sample.online))
    = Some (Response 400 (VObj [("error", message)]))
  ∧ last (replies (put_orders_id "abc" body 2000 None Sample.online))
    ≠ Some (Response 404 not_found)
  ∧ last (replies (delete_orders_id "abc" None Sample.online))
    = Some (Response 500 (VObj [("error", message)]))
  ∧ last (replies (delete_orders_id "abc" None Sample.online))
    ≠ Some (Response 404 not_found).
Proof.
  intros body message.
  assert (last (replies (put_orders_id "abc" body 2000 None Sample.online))
          = Some (Response 400 (VObj [("error", message)]))) as Hput by reflexivity.
  assert (last (replies (delete_orders_id "abc" None Sample.online))
          = Some (Response 500 (VObj [("error", message)]))) as Hdelete by reflexivity.
  split; [reflexivity|]. split; [exact Hput|]. split.
  { rewrite Hput. discriminate. }
  split; [exact Hdelete|].
  rewrite Hdelete. discriminate.
Qed.

(** ** Further properties on the concrete host *)

Lemma every_request_is_answered_once_witness :
  let evs := [ Http GET_orders 3000 None; Connect "carol";
               Http (DELETE_orders_id "200") 4000 None;
               Upstream Sample.deleted ] in
  stream Sample.online ≠ Idle
  ∧ length (replies (run Sample.online evs))
    = length (replies Sample.online)
      + length (filter (fun ev => is_request ev = true) evs).
Proof.
  intros evs. split; [done|].
  apply (every_request_is_answered_once Sample.online evs). done.
Defined.

Lemma only_writes_change_the_collection_witness :
  writes (Http GET_orders 3000 None) = false
  ∧ orders (step Sample.online (Http GET_orders 3000 None))
    = orders Sample.online.
Proof.
  split; [reflexivity|].
  apply (only_writes_change_the_collection Sample.online
           (Http GET_orders 3000 None)).
  reflexivity.
Defined.

Lemma delete_twice_is_not_found_witness :
  let once := delete_orders_id "200" None Sample.online in
  isNaN (Number "200") = false
  ∧ filter (fun d => matches_id (Number "200") d = true) (orders Sample.online)
    = [Sample.stored200]
  ∧ delete_orders_id "200" None once = reply 404 not_found once.
Proof.
  intros once. split; [reflexivity|]. split; [reflexivity|].
  destruct (delete_twice_is_not_found "200" Sample.online Sample.stored200)
    as [_ Hsecond]; [reflexivity|reflexivity|].
  exact Hsecond.
Defined.

Lemma event_with_document_is_delivered_with_it_witness :
  stream Sample.online = Open watch_options
  ∧ ("alice" ∈ sockets Sample.online)
  ∧ ("alice" ∉ gone Sample.online)
  ∧ is_str "update" (prop "operationType" Sample.inserted) = false
  ∧ truthy (prop "fullDocument" Sample.inserted) = true
  ∧ received "alice" (step Sample.online (Upstream Sample.inserted))
    = received "alice" Sample.online
      ++ [ VObj [ ("op", VStr "insert"); ("ns", Sample.ns_orders);
                  ("documentKey", Sample.key200);
                  ("fullDocument", VObj Sample.stored200);
                  ("updateDescription", VNull) ] ].
Proof.
  split; [reflexivity|]. split; [member|]. split; [member|].
  split; [reflexivity|]. split; [reflexivity|].
  apply (event_with_document_is_delivered_with_it Sample.online watch_options
           Sample.inserted "alice"); [reflexivity|member|member|..];
    reflexivity.
Defined.

Lemma stream_close_ends_delivery_witness :
  stream Sample.online = Open watch_options
  ∧ ∀ evs s,
      stream (run (step Sample.online StreamClose) evs) = Closed
      ∧ dispatched (step Sample.online StreamClose) evs = []
      ∧ received s (run (step Sample.online StreamClose) evs)
        = received s Sample.online.
Proof.
  split; [reflexivity|].
  destruct (stream_close_ends_delivery Sample.online watch_options eq_refl)
    as (_ & _ & Hafter).
  exact Hafter.
Defined.
